(** * defer.hpp: a scope guard that runs a task at scope exit

    A shallow embedding of [include/defer/defer.hpp]: the class
    [defer::detail::Defer], the tag type and [operator|], the helper macros
    that build the guard's variable name, and the [defer] macro itself.

    The header is only meaningful together with the C++ rules for automatic
    storage: an object declared in a block is destroyed when control leaves
    the block, most recently constructed first, whether the block is left by
    falling off its end, by [return] or by an exception.  Those rules are
    written out below ([unwind], [run_seq]) so that the behaviour of client
    code using the header can be stated and proved. *)

From Stdlib Require Import DecimalString DecimalPos DecimalN.
From stdpp Require Import gmap strings list.

(** ** The observable world *)

(** What can be thrown: [std::bad_function_call] (by an empty
    [std::function]) or anything the client code throws. *)
Inductive exn :=
| bad_function_call
| user_exception (code : Z).

#[global] Instance exn_eq_dec : EqDecision exn.
Proof. solve_decision. Defined.

(** A ghost trace.  [EvCall l] is recorded each time the target labelled [l]
    of a [std::function] is entered through [operator()], [EvStmt l] each
    time the client statement labelled [l] is executed. *)
Inductive Event :=
| EvStmt (label : nat)
| EvCall (label : nat).

#[global] Instance Event_eq_dec : EqDecision Event.
Proof. solve_decision. Defined.

(** The variables of the enclosing function (the ones a deferred block can
    name; they outlive every guard, which is the caller's obligation stated
    in the header's warning) and the trace. *)
Record State := mkState {
  vars : gmap string Z;
  log : list Event
}.

(** ** Computations that may throw *)

Inductive Outcome (A : Type) :=
| Done (a : A)
| Raise (e : exn)
| Terminate.
Arguments Done {A} a.
Arguments Raise {A} e.
Arguments Terminate {A}.

Definition M (A : Type) : Type := State -> Outcome A * State.

Definition ret {A} (a : A) : M A := fun st => (Done a, st).

Definition bind {A B} (m : M A) (k : A -> M B) : M B :=
  fun st =>
    match m st with
    | (Done a, st') => k a st'
    | (Raise e, st') => (Raise e, st')
    | (Terminate, st') => (Terminate, st')
    end.

Declare Scope cpp_scope.
Delimit Scope cpp_scope with cpp.
Notation "m ;;; k" := (bind m (fun _ => k))
  (at level 100, right associativity) : cpp_scope.

(** [try { body } catch (...) { handler }] *)
Definition try_catch_all {A} (body handler : M A) : M A :=
  fun st =>
    match body st with
    | (Raise _, st') => handler st'
    | r => r
    end.

(** A function declared [noexcept]: an exception that would leave it calls
    [std::terminate] instead. *)
Definition noexcept {A} (body : M A) : M A :=
  fun st =>
    match body st with
    | (Raise _, st') => (Terminate, st')
    | r => r
    end.

(** ** [std::function<void()>] *)

(** A target: code that reads and writes the enclosing variables and either
    returns or throws.  The label only feeds the trace. *)
Record Callable := mkCallable {
  c_label : nat;
  c_body : gmap string Z -> gmap string Z * option exn
}.

Module detail.

(** [using DeferTaskType = std::function<void()>;]  [None] is the empty
    function object. *)
Definition DeferTaskType : Type := option Callable.

(** [std::function::operator()]: an empty object throws
    [bad_function_call], otherwise the target runs. *)
Definition call (f : DeferTaskType) : M unit :=
  fun st =>
    match f with
    | None => (Raise bad_function_call, st)
    | Some c =>
        let (v, r) := c_body c (vars st) in
        let st' := {| vars := v; log := log st ++ [EvCall (c_label c)] |} in
        match r with
        | None => (Done tt, st')
        | Some e => (Raise e, st')
        end
    end.

(** Move construction from [std::move(src)]: the new object holds the
    target, the source is left empty.  Returns (new object, source after). *)
Definition std_move (src : DeferTaskType) : DeferTaskType * DeferTaskType :=
  (src, None).

(** Copy construction: both objects hold the target. *)
Definition std_copy (src : DeferTaskType) : DeferTaskType * DeferTaskType :=
  (src, src).

(** ** [class Defer] *)

Record Defer := mkDefer { m_task : DeferTaskType }.

(** [Defer(DeferTaskType task) : m_task(std::move(task)) {}] *)
Definition Defer_ctor (task : DeferTaskType) : M Defer :=
  let (m, _) := std_move task in
  ret {| m_task := m |}.

(** [~Defer() noexcept { try { m_task(); } catch (...) {} }] *)
Definition Defer_dtor (this : Defer) : M unit :=
  noexcept (try_catch_all (call (m_task this)) (ret tt)).

(** [struct DeferTaskTag {};] *)
Inductive DeferTaskTag := mkDeferTaskTag.

(** [Defer operator|(DeferTaskTag, DeferTaskType task)
       { return Defer(std::move(task)); }]
    The returned prvalue initialises the caller's object directly (copy
    elision: required since C++17 and what compilers do for this [return]
    under the earlier standards, where the class's implicit copy
    constructor must nevertheless exist for the statement to compile), so
    no temporary guard is destroyed here. *)
Definition operator_bitor (_ : DeferTaskTag) (task : DeferTaskType) : M Defer :=
  let (arg, _) := std_move task in
  Defer_ctor arg.

(** *** Special member functions of [Defer]

    The class body declares a constructor from a task and a destructor, and
    nothing else.  What the language adds is decided by the rules for
    implicitly declared special members. *)
Inductive MemberDecl := not_declared | user_provided | deleted.

Record ClassDecl := mkClassDecl {
  decl_copy_ctor : MemberDecl;
  decl_copy_assign : MemberDecl;
  decl_move_ctor : MemberDecl;
  decl_move_assign : MemberDecl;
  decl_dtor : MemberDecl
}.

Definition Defer_class : ClassDecl :=
  {| decl_copy_ctor := not_declared;
     decl_copy_assign := not_declared;
     decl_move_ctor := not_declared;
     decl_move_assign := not_declared;
     decl_dtor := user_provided |}.

Definition is_declared (d : MemberDecl) : bool :=
  match d with not_declared => false | _ => true end.

(** A copy constructor that is not declared is declared implicitly; it is
    deleted when the class declares a move operation, defaulted otherwise
    (also next to a user-declared destructor).  The only member,
    [std::function], is copyable. *)
Definition copy_constructible (c : ClassDecl) : bool :=
  match decl_copy_ctor c with
  | user_provided => true
  | deleted => false
  | not_declared =>
      negb (is_declared (decl_move_ctor c) || is_declared (decl_move_assign c))
  end.

Definition copy_assignable (c : ClassDecl) : bool :=
  match decl_copy_assign c with
  | user_provided => true
  | deleted => false
  | not_declared =>
      negb (is_declared (decl_move_ctor c) || is_declared (decl_move_assign c))
  end.

(** A move constructor is implicitly declared only when the class declares
    no copy operation, no move assignment and no destructor. *)
Definition has_move_ctor (c : ClassDecl) : bool :=
  match decl_move_ctor c with
  | user_provided => true
  | deleted => false
  | not_declared =>
      negb (is_declared (decl_copy_ctor c) || is_declared (decl_copy_assign c)
            || is_declared (decl_move_assign c) || is_declared (decl_dtor c))
  end.

(** The defaulted copy constructor copies member by member. *)
Definition Defer_copy_ctor (other : Defer) : M Defer :=
  let (m, _) := std_copy (m_task other) in
  ret {| m_task := m |}.

(** The defaulted copy assignment assigns member by member; the task held
    before is dropped without being called. *)
Definition Defer_copy_assign (this other : Defer) : M Defer :=
  let (m, _) := std_copy (m_task other) in
  ret {| m_task := m |}.

End detail.
Import detail.

(** ** The macros *)

(** [#define __DEFER_CONCAT_HELPER_2__(a, b) a ## b] *)
Definition __DEFER_CONCAT_HELPER_2__ (a b : string) : string := a +:+ b.

(** [#define __DEFER_CONCAT_HELPER_1__(a, b) __DEFER_CONCAT_HELPER_2__(a, b)] *)
Definition __DEFER_CONCAT_HELPER_1__ (a b : string) : string :=
  __DEFER_CONCAT_HELPER_2__ a b.

(** [#define __DEFER_CONCAT__(a, b) __DEFER_CONCAT_HELPER_1__(a, b)] *)
Definition __DEFER_CONCAT__ (a b : string) : string :=
  __DEFER_CONCAT_HELPER_1__ a b.

(** [__LINE__] expands to the decimal literal of the current line number. *)
Definition __LINE__ (line : N) : string :=
  NilZero.string_of_uint (N.to_uint line).

(** [#define __DEFER_NEWBIE__ __DEFER_CONCAT__(__defer_newbie_, __LINE__)] *)
Definition __DEFER_NEWBIE__ (line : N) : string :=
  __DEFER_CONCAT__ "__defer_newbie_" (__LINE__ line).

(** The brace-enclosed statements written after the marker. *)
Record Block := mkBlock {
  b_label : nat;
  b_run : gmap string Z -> gmap string Z * option exn
}.

(** How a lambda expression reaches the enclosing variables. *)
Inductive Capture := by_reference | by_copy.

(** The closure a lambda expression [[cap]() mutable -> void { body }]
    evaluates to, where [site] is the value of the enclosing variables when
    the expression is evaluated.  With [[&]] the body works on the
    variables themselves whenever it is called; with [[=]] it works on the
    closure's own copies taken at [site]. *)
Definition lambda (cap : Capture) (body : Block) (site : gmap string Z)
  : Callable :=
  {| c_label := b_label body;
     c_body :=
       match cap with
       | by_reference => fun env => b_run body env
       | by_copy => fun env => (env, snd (b_run body site))
       end |}.

(** A declaration of a local variable of type [Defer]. *)
Record Decl := mkDecl {
  d_name : string;
  d_const : bool;
  d_init : M Defer
}.

(** [#define defer const auto __DEFER_NEWBIE__ =
       ::defer::detail::DeferTaskTag{} | [&]() mutable -> void]
    used on source line [line] and followed by [body] and a semicolon. *)
Definition defer (line : N) (body : Block) : Decl :=
  {| d_name := __DEFER_NEWBIE__ line;
     d_const := true;
     d_init := fun st =>
       operator_bitor mkDeferTaskTag
         (Some (lambda by_reference body (vars st))) st |}.

(** ** Client code: blocks with automatic objects *)

(** [Defer name(task);] written by hand. *)
Definition declare (name : string) (task : DeferTaskType) : Decl :=
  {| d_name := name; d_const := false; d_init := Defer_ctor task |}.

(** [Defer name = other;] *)
Definition declare_copy (name : string) (other : Defer) : Decl :=
  {| d_name := name; d_const := false; d_init := Defer_copy_ctor other |}.

(** How a statement or a block completes.  [Aborted] is the end of the
    process ([std::abort], [std::terminate]): no object is destroyed. *)
Inductive Completion :=
| Normal
| Returned
| Thrown (e : exn)
| Aborted.

#[global] Instance Completion_eq_dec : EqDecision Completion.
Proof. solve_decision. Defined.

(** A statement other than a guard declaration or a nested block. *)
Record Stmt := mkStmt {
  s_label : nat;
  s_run : gmap string Z -> gmap string Z * Completion
}.

#[warning="-register-all"]
Inductive Item :=
| IStmt (s : Stmt)
| IDecl (d : Decl)
| IBlock (body : list Item).

(** One step of a block either brings a new guard to life or completes. *)
Inductive Step :=
| Declared (g : Defer) (st : State)
| Completed (c : Completion) (st : State).

Definition exec_stmt (s : Stmt) (st : State) : Completion * State :=
  let (v, c) := s_run s (vars st) in
  (c, {| vars := v; log := log st ++ [EvStmt (s_label s)] |}).

Definition exec_decl (d : Decl) (st : State) : Step :=
  match d_init d st with
  | (Done g, st') => Declared g st'
  | (Raise e, st') => Completed (Thrown e) st'
  | (Terminate, st') => Completed Aborted st'
  end.

(** The guards still alive in a block, most recent first, are destroyed one
    after the other. *)
Fixpoint destroy_all (locals : list Defer) : M unit :=
  match locals with
  | [] => ret tt
  | g :: older => (Defer_dtor g ;;; destroy_all older)%cpp
  end.

(** Leaving a block with completion [c].  [~Defer] is [noexcept], so any
    outcome of the destructions other than [Done] is the end of the
    process. *)
Definition unwind (locals : list Defer) (c : Completion) (st : State)
  : Completion * State :=
  match c with
  | Aborted => (Aborted, st)
  | _ =>
      match destroy_all locals st with
      | (Done _, st') => (c, st')
      | (_, st') => (Aborted, st')
      end
  end.
Arguments unwind : simpl never.

(** The steps of a block run in order; [locals] are the guards declared so
    far in this block, most recent first.  The block is left at its end or
    at the first step that does not complete normally. *)
Fixpoint run_seq (steps : list (State -> Step)) (locals : list Defer)
    (st : State) : Completion * State :=
  match steps with
  | [] => unwind locals Normal st
  | step :: rest =>
      match step st with
      | Declared g st' => run_seq rest (g :: locals) st'
      | Completed Normal st' => run_seq rest locals st'
      | Completed c st' => unwind locals c st'
      end
  end.

Fixpoint exec_item (i : Item) (st : State) : Step :=
  match i with
  | IStmt s => let (c, st') := exec_stmt s st in Completed c st'
  | IDecl d => exec_decl d st
  | IBlock body =>
      let (c, st') := run_seq (map exec_item body) [] st in Completed c st'
  end.

(** [{ body }] *)
Definition exec_block (body : list Item) (st : State) : Completion * State :=
  run_seq (map exec_item body) [] st.

(** *** Names

    Two declarations of the same name in one block do not compile; a name
    may be declared again in a nested block. *)
Definition declared_names (body : list Item) : list string :=
  flat_map (fun i => match i with IDecl d => [d_name d] | _ => [] end) body.

Fixpoint well_formed_item (i : Item) : bool :=
  match i with
  | IBlock body =>
      bool_decide (NoDup (declared_names body))
      && forallb well_formed_item body
  | _ => true
  end.

Definition well_formed (body : list Item) : bool :=
  well_formed_item (IBlock body).

(** A guard can be the left operand of [=] when it is not [const] and the
    class has a copy assignment operator. *)
Definition assignable (d : Decl) : bool :=
  negb (d_const d) && copy_assignable Defer_class.

(** *** Reading the trace *)

(** The state right after target [T] was called once from state [st]. *)
Definition after_call (T : Callable) (st : State) : State :=
  {| vars := fst (c_body T (vars st));
     log := log st ++ [EvCall (c_label T)] |}.

(** A block seen as a call target acting on the live variables. *)
Definition target_of (b : Block) : Callable :=
  {| c_label := b_label b; c_body := b_run b |}.

(** The state after the targets [Ts] were called one after the other. *)
Definition call_all (Ts : list Callable) (st : State) : State :=
  foldl (fun s T => after_call T s) st Ts.

(** A scope made of marker uses only, one per (line, block) pair. *)
Definition markers (uses : list (N * Block)) : list Item :=
  map (fun u => IDecl (defer (fst u) (snd u))) uses.

(** How many times the target labelled [l] was called. *)
Definition calls_of (l : nat) (tr : list Event) : nat :=
  count_occ Event_eq_dec tr (EvCall l).

(** The statements of a list run in order until one does not complete
    normally. *)
Fixpoint exec_stmts (ss : list Stmt) (st : State) : Completion * State :=
  match ss with
  | [] => (Normal, st)
  | s :: rest =>
      match exec_stmt s st with
      | (Normal, st') => exec_stmts rest st'
      | r => r
      end
  end.

(** What an enclosing block does once a nested block has completed with
    [c]: it goes on with the items that follow, or is left in turn. *)
Definition continue_with (c : Completion) (st : State) (rest : list Item)
  : Completion * State :=
  match c with
  | Normal => exec_block rest st
  | _ => (c, st)
  end.

(** ** Sample client code *)

Definition bump (x : string) (env : gmap string Z) : gmap string Z :=
  <[x := (default 0%Z (env !! x) + 1)%Z]> env.

(** [{ x += 1; }] *)
Definition blk_bump (l : nat) (x : string) : Block :=
  {| b_label := l; b_run := fun env => (bump x env, None) |}.

(** [{ y = x; }] *)
Definition blk_copy_var (l : nat) (y x : string) : Block :=
  {| b_label := l;
     b_run := fun env => (<[y := default 0%Z (env !! x)]> env, None) |}.

(** [{ x += 1; throw code; }] *)
Definition blk_throw (l : nat) (x : string) (code : Z) : Block :=
  {| b_label := l;
     b_run := fun env => (bump x env, Some (user_exception code)) |}.

Definition task_of (b : Block) : DeferTaskType := Some (target_of b).

(** [x = v;] *)
Definition assign (l : nat) (x : string) (v : Z) : Stmt :=
  {| s_label := l; s_run := fun env => (<[x := v]> env, Normal) |}.

(** [return;] *)
Definition stmt_return (l : nat) : Stmt :=
  {| s_label := l; s_run := fun env => (env, Returned) |}.

(** [throw code;] *)
Definition stmt_throw (l : nat) (code : Z) : Stmt :=
  {| s_label := l; s_run := fun env => (env, Thrown (user_exception code)) |}.

(** [std::abort();] *)
Definition stmt_abort (l : nat) : Stmt :=
  {| s_label := l; s_run := fun env => (env, Aborted) |}.

Definition st0 : State := {| vars := ∅; log := [] |}.

(** ** Further shapes of client code *)

(** A scope without nested blocks: statements and marker uses in any
    order. *)
Definition flat_item (x : Stmt + N * Block) : Item :=
  match x with
  | inl s => IStmt s
  | inr u => IDecl (defer (fst u) (snd u))
  end.

Fixpoint flat_stmts (xs : list (Stmt + N * Block)) : list Stmt :=
  match xs with
  | [] => []
  | inl s :: rest => s :: flat_stmts rest
  | inr _ :: rest => flat_stmts rest
  end.

Fixpoint flat_targets (xs : list (Stmt + N * Block)) : list Callable :=
  match xs with
  | [] => []
  | inl _ :: rest => flat_targets rest
  | inr u :: rest => target_of (snd u) :: flat_targets rest
  end.

(** The blocks whose marker is reached when the scope is run from [st]:
    those written before the first statement that does not complete
    normally. *)
Fixpoint reached_targets (xs : list (Stmt + N * Block)) (st : State)
  : list Callable :=
  match xs with
  | [] => []
  | inl s :: rest =>
      match exec_stmt s st with
      | (Normal, st') => reached_targets rest st'
      | _ => []
      end
  | inr u :: rest => target_of (snd u) :: reached_targets rest st
  end.


(** One block per marker, side by side:
    [{ defer {..}; } { defer {..}; } { defer {..}; }] *)
Definition sibling_markers (uses : list (N * Block)) : list Item :=
  map (fun u => IBlock [IDecl (defer (fst u) (snd u))]) uses.

(** The number of guard declarations in a piece of code, nested blocks
    included. *)
Fixpoint guards_in_item (i : Item) : nat :=
  match i with
  | IStmt _ => 0
  | IDecl _ => 1
  | IBlock body => foldr (fun i n => guards_in_item i + n) 0 body
  end.

Definition guards_in (body : list Item) : nat := guards_in_item (IBlock body).

(** Code whose guards all come from the marker. *)
Fixpoint only_markers_item (i : Item) : Prop :=
  match i with
  | IStmt _ => True
  | IDecl d => exists line body, d = defer line body
  | IBlock body => foldr (fun i P => only_markers_item i /\ P) True body
  end.

Definition only_markers (body : list Item) : Prop :=
  only_markers_item (IBlock body).

(** Code whose statements, whatever the variables hold, complete
    normally. *)
Fixpoint quiet_item (i : Item) : Prop :=
  match i with
  | IStmt s => forall env, snd (s_run s env) = Normal
  | IDecl _ => True
  | IBlock body => foldr (fun i P => quiet_item i /\ P) True body
  end.

Definition quiet (body : list Item) : Prop := quiet_item (IBlock body).

(** The number of calls of any target in a trace. *)
Fixpoint total_calls (tr : list Event) : nat :=
  match tr with
  | [] => 0
  | EvCall _ :: rest => S (total_calls rest)
  | EvStmt _ :: rest => total_calls rest
  end.

(** What one item of marker-only code does to the number of calls. *)
Definition counts_calls (i : Item) : Prop :=
  forall st,
    match exec_item i st with
    | Declared g st' =>
        guards_in_item i = 1 /\ is_Some (m_task g) /\ st' = st
    | Completed c st' =>
        total_calls (log st') <= total_calls (log st) + guards_in_item i
        /\ (c = Normal ->
            total_calls (log st') = total_calls (log st) + guards_in_item i)
    end.

(** [{ Defer a(t1); Defer b(t2); a = b; }] step by step: both guards are
    built, [a] is assigned from [b], then [b] and [a] are destroyed. *)
Definition assign_then_leave (t1 t2 : DeferTaskType) : M unit :=
  bind (Defer_ctor t1) (fun a =>
  bind (Defer_ctor t2) (fun b =>
  bind (Defer_copy_assign a b) (fun a' =>
  (Defer_dtor b ;;; Defer_dtor a')%cpp))).

(** *** Identifiers *)

Definition is_digit (a : Ascii.ascii) : bool :=
  let n := Ascii.nat_of_ascii a in (48 <=? n) && (n <=? 57).

Definition is_nondigit (a : Ascii.ascii) : bool :=
  let n := Ascii.nat_of_ascii a in
  ((65 <=? n) && (n <=? 90)) || ((97 <=? n) && (n <=? 122)) || (n =? 95).

Fixpoint all_chars (p : Ascii.ascii -> bool) (s : string) : bool :=
  match s with
  | EmptyString => true
  | String a rest => p a && all_chars p rest
  end.

(** An identifier: a letter or underscore followed by letters, digits and
    underscores. *)
Definition is_identifier (s : string) : bool :=
  match s with
  | EmptyString => false
  | String a rest =>
      is_nondigit a && all_chars (fun c => is_nondigit c || is_digit c) rest
  end.

(** Induction on code, through nested blocks. *)
Section Item_nested_ind.
Variable P : Item -> Prop.
Hypothesis Hstmt : forall s, P (IStmt s).
Hypothesis Hdecl : forall d, P (IDecl d).
Hypothesis Hblock : forall body, Forall P body -> P (IBlock body).

Fixpoint Item_nested_ind (i : Item) : P i :=
  match i with
  | IStmt s => Hstmt s
  | IDecl d => Hdecl d
  | IBlock body =>
      Hblock body
        ((fix go (l : list Item) : Forall P l :=
            match l with
            | [] => List.Forall_nil P
            | x :: rest =>
                @List.Forall_cons _ P x rest (Item_nested_ind x) (go rest)
            end) body)
  end.
End Item_nested_ind.

(** *** Straight-line code written with the marker

    Statements, markers and nested blocks, each written once in sequence:
    no loop and no branch. *)
#[warning="-register-all"]
Inductive Code :=
| CStmt (s : Stmt)
| CMarker (line : N) (body : Block)
| CBlock (body : list Code).

Fixpoint to_item (c : Code) : Item :=
  match c with
  | CStmt s => IStmt s
  | CMarker line body => IDecl (defer line body)
  | CBlock body => IBlock (map to_item body)
  end.

(** The guard a marker followed by [b] declares. *)
Definition guard_of (b : Block) : Defer := {| m_task := Some (target_of b) |}.

(** The blocks deferred directly in a scope, in the order of the markers. *)
Definition direct_markers (body : list Code) : list Block :=
  flat_map (fun c => match c with CMarker _ b => [b] | _ => [] end) body.

Definition call_events (bs : list Block) : list Event :=
  map (fun b => EvCall (b_label b)) bs.

(** The trace expected of code whose statements complete normally: the
    statements in order and, where a block ends, the calls of the blocks
    deferred directly in it, last declared first. *)
Fixpoint code_trace (c : Code) : list Event :=
  match c with
  | CStmt s => [EvStmt (s_label s)]
  | CMarker _ _ => []
  | CBlock body =>
      flat_map code_trace body ++ call_events (rev (direct_markers body))
  end.

(** The number of markers, nested blocks included, whose deferred block
    carries the label [l]. *)
Fixpoint markers_labelled (l : nat) (c : Code) : nat :=
  match c with
  | CStmt _ => 0
  | CMarker _ b => if Nat.eqb (b_label b) l then 1 else 0
  | CBlock body => foldr (fun c n => markers_labelled l c + n) 0 body
  end.

Section Code_nested_ind.
Variable P : Code -> Prop.
Hypothesis Hstmt : forall s, P (CStmt s).
Hypothesis Hmarker : forall line body, P (CMarker line body).
Hypothesis Hblock : forall body, Forall P body -> P (CBlock body).

Fixpoint Code_nested_ind (c : Code) : P c :=
  match c with
  | CStmt s => Hstmt s
  | CMarker line body => Hmarker line body
  | CBlock body =>
      Hblock body
        ((fix go (l : list Code) : Forall P l :=
            match l with
            | [] => List.Forall_nil P
            | x :: rest =>
                @List.Forall_cons _ P x rest (Code_nested_ind x) (go rest)
            end) body)
  end.
End Code_nested_ind.

(** * Properties *)

(** ** The destructor *)

Lemma call_some (T : Callable) (st : State) :
  call (Some T) st =
    (match snd (c_body T (vars st)) with
     | None => Done tt
     | Some e => Raise e
     end, after_call T st).
Proof.
  unfold call, after_call.
  destruct (c_body T (vars st)) as [v [e|]]; reflexivity.
Qed.

Lemma Defer_dtor_some (T : Callable) (st : State) :
  Defer_dtor {| m_task := Some T |} st = (Done tt, after_call T st).
Proof.
  unfold Defer_dtor, noexcept, try_catch_all; simpl m_task.
  rewrite call_some.
  destruct (snd (c_body T (vars st))); reflexivity.
Qed.

Lemma Defer_dtor_none (st : State) :
  Defer_dtor {| m_task := None |} st = (Done tt, st).
Proof. reflexivity. Qed.

(** The destructor always returns: it neither throws nor terminates. *)
Lemma Defer_dtor_done (g : Defer) (st : State) :
  Defer_dtor g st = (Done tt, snd (Defer_dtor g st)).
Proof.
  destruct g as [[T|]].
  - rewrite Defer_dtor_some. reflexivity.
  - reflexivity.
Qed.

(** ** Leaving a block *)

Lemma unwind_aborted (locals : list Defer) (st : State) :
  unwind locals Aborted st = (Aborted, st).
Proof. reflexivity. Qed.

Lemma unwind_nil (c : Completion) (st : State) : unwind [] c st = (c, st).
Proof. destruct c; reflexivity. Qed.

Lemma unwind_cons (g : Defer) (older : list Defer) (c : Completion)
    (st : State) :
  c <> Aborted ->
  unwind (g :: older) c st = unwind older c (snd (Defer_dtor g st)).
Proof.
  intros Hc. unfold unwind. simpl destroy_all. unfold bind.
  rewrite (Defer_dtor_done g st).
  destruct c; try reflexivity. congruence.
Qed.

Lemma unwind_app (inner outer : list Defer) (c : Completion) (st : State) :
  unwind (inner ++ outer) c st =
    let (c', st') := unwind inner c st in unwind outer c' st'.
Proof.
  destruct (decide (c = Aborted)) as [->|Hc].
  - rewrite !unwind_aborted. reflexivity.
  - revert st. induction inner as [|g older IH]; intros st.
    + rewrite unwind_nil. reflexivity.
    + rewrite <- app_comm_cons, !unwind_cons by assumption. apply IH.
Qed.

(** Guards that were alive before a sequence of steps started are destroyed
    after everything the steps declared, whatever the completion. *)
Lemma run_seq_frame (steps : list (State -> Step)) (locals outer : list Defer)
    (st : State) :
  run_seq steps (locals ++ outer) st =
    let (c, st') := run_seq steps locals st in unwind outer c st'.
Proof.
  revert locals st.
  induction steps as [|step rest IH]; intros locals st; simpl.
  - apply unwind_app.
  - destruct (step st) as [g st'|c st'].
    + rewrite app_comm_cons. apply IH.
    + destruct c; try apply unwind_app. apply IH.
Qed.

Lemma exec_block_decl (d : Decl) (rest : list Item) (g : Defer)
    (st st1 : State) :
  d_init d st = (Done g, st1) ->
  exec_block (IDecl d :: rest) st =
    let (c, st') := exec_block rest st1 in unwind [g] c st'.
Proof.
  intros Hinit. unfold exec_block. simpl. unfold exec_decl. rewrite Hinit.
  apply (run_seq_frame (map exec_item rest) [] [g] st1).
Qed.

(** ** Initialisers *)

Lemma declare_init (name : string) (task : DeferTaskType) (st : State) :
  d_init (declare name task) st = (Done {| m_task := task |}, st).
Proof. reflexivity. Qed.

Lemma defer_init (line : N) (body : Block) (st : State) :
  d_init (defer line body) st =
    (Done {| m_task := Some (target_of body) |}, st).
Proof. reflexivity. Qed.

(** A block that starts with the declaration of a guard holding [T]: the
    rest of the block runs to its own end, then [T] is called. *)
Lemma exec_block_guard (d : Decl) (T : Callable) (rest : list Item)
    (st st1 st2 : State) (c : Completion) :
  d_init d st = (Done {| m_task := Some T |}, st1) ->
  exec_block rest st1 = (c, st2) ->
  c <> Aborted ->
  exec_block (IDecl d :: rest) st = (c, after_call T st2).
Proof.
  intros Hinit Hrest Hc.
  rewrite (exec_block_decl _ _ _ _ _ Hinit), Hrest.
  rewrite unwind_cons by assumption.
  rewrite Defer_dtor_some. apply unwind_nil.
Qed.

Create HintDb guards.
#[global] Hint Resolve declare_init defer_init : guards.

(** Peel the declaration of a guard holding [T] off the front of a block. *)
Ltac open_guard T :=
  eapply (exec_block_guard _ T);
  [ solve [auto with guards] | | first [assumption | discriminate] ].

(** ** Plain statements *)

Lemma run_seq_stmts (ss : list Stmt) (rest : list (State -> Step))
    (locals : list Defer) (st : State) :
  run_seq (map exec_item (map IStmt ss) ++ rest) locals st =
    match exec_stmts ss st with
    | (Normal, st') => run_seq rest locals st'
    | (c, st') => unwind locals c st'
    end.
Proof.
  revert st. induction ss as [|s ss IH]; intros st; simpl.
  - reflexivity.
  - destruct (exec_stmt s st) as [[| |e|] st']; try reflexivity. apply IH.
Qed.

Lemma exec_block_stmts (ss : list Stmt) (st : State) :
  exec_block (map IStmt ss) st = exec_stmts ss st.
Proof.
  unfold exec_block.
  rewrite <- (app_nil_r (map exec_item (map IStmt ss))), run_seq_stmts.
  destruct (exec_stmts ss st) as [c st']. simpl.
  destruct c; reflexivity.
Qed.

Lemma exec_block_stmts_then (ss : list Stmt) (rest : list Item) (st st1 : State) :
  exec_stmts ss st = (Normal, st1) ->
  exec_block (map IStmt ss ++ rest) st = exec_block rest st1.
Proof.
  intros H. unfold exec_block. rewrite map_app, run_seq_stmts, H. reflexivity.
Qed.

Lemma calls_of_app (l : nat) (tr1 tr2 : list Event) :
  calls_of l (tr1 ++ tr2) = calls_of l tr1 + calls_of l tr2.
Proof. apply count_occ_app. Qed.

Lemma calls_of_exec_stmt (l : nat) (s : Stmt) (st : State) :
  calls_of l (log (snd (exec_stmt s st))) = calls_of l (log st).
Proof.
  unfold exec_stmt. destruct (s_run s (vars st)) as [v c]. simpl.
  rewrite calls_of_app. unfold calls_of at 2.
  rewrite count_occ_cons_neq by discriminate. simpl. lia.
Qed.

(** Statements never enter a guarded task. *)
Lemma calls_of_exec_stmts (l : nat) (ss : list Stmt) (st : State) :
  calls_of l (log (snd (exec_stmts ss st))) = calls_of l (log st).
Proof.
  revert st. induction ss as [|s ss IH]; intros st; simpl.
  - reflexivity.
  - pose proof (calls_of_exec_stmt l s st) as Hs.
    destruct (exec_stmt s st) as [c st']. simpl in Hs.
    destruct c; simpl; try assumption.
    rewrite IH. assumption.
Qed.

Lemma calls_of_after_call (T : Callable) (st : State) :
  calls_of (c_label T) (log (after_call T st)) = S (calls_of (c_label T) (log st)).
Proof.
  unfold after_call. simpl. rewrite calls_of_app.
  unfold calls_of at 2.
  rewrite count_occ_cons_eq by reflexivity. simpl. lia.
Qed.

(** ** The claims *)

(** C1. For every task [T]: a block that constructs a guard with [T] and
    then runs any statements invokes [T] exactly once, when the block is
    left and the guard destroyed.  The block ends in the state reached by
    calling [T] once on the state the statements left; no call of [T] is in
    the trace before that point and exactly one more is in it afterwards. *)
Theorem C1_task_invoked_exactly_once_at_destruction
    (T : Callable) (name : string) (body : list Stmt)
    (st st1 : State) (c : Completion) :
  exec_stmts body st = (c, st1) ->
  c <> Aborted ->
  exec_block (IDecl (declare name (Some T)) :: map IStmt body) st
    = (c, after_call T st1)
  /\ calls_of (c_label T) (log st1) = calls_of (c_label T) (log st)
  /\ calls_of (c_label T) (log (after_call T st1))
     = S (calls_of (c_label T) (log st)).
Proof.
  intros Hbody Hc.
  assert (Hquiet : calls_of (c_label T) (log st1) = calls_of (c_label T) (log st)).
  { pose proof (calls_of_exec_stmts (c_label T) body st) as H.
    rewrite Hbody in H. exact H. }
  split; [|split].
  - open_guard T. rewrite exec_block_stmts. assumption.
  - exact Hquiet.
  - rewrite calls_of_after_call, Hquiet. reflexivity.
Qed.

Lemma C1_witness :
  exec_block [IDecl (declare "guard" (task_of (blk_bump 7 "x")));
              IStmt (assign 1 "x" 5); IStmt (stmt_return 2);
              IStmt (assign 3 "x" 9)] st0
  = (Returned, {| vars := {[ "x" := 6%Z ]};
                  log := [EvStmt 1; EvStmt 2; EvCall 7] |}).
Proof.
  refine (proj1 (C1_task_invoked_exactly_once_at_destruction
           (target_of (blk_bump 7 "x")) "guard"
           [assign 1 "x" 5; stmt_return 2; assign 3 "x" 9]
           st0 {| vars := {[ "x" := 5%Z ]}; log := [EvStmt 1; EvStmt 2] |}
           Returned _ _)).
  - reflexivity.
  - discriminate.
Defined.

(** ** Nested blocks *)

Lemma exec_block_nested (body rest : list Item) (st : State) :
  exec_block (IBlock body :: rest) st =
    let (c, st') := exec_block body st in continue_with c st' rest.
Proof.
  unfold exec_block at 1. simpl.
  fold (exec_block body st).
  destruct (exec_block body st) as [c st'].
  destruct c; reflexivity.
Qed.

Lemma exec_block_single_stmt (s : Stmt) (st : State) :
  exec_block [IStmt s] st = exec_stmt s st.
Proof.
  unfold exec_block. simpl.
  destruct (exec_stmt s st) as [c st']. destruct c; reflexivity.
Qed.

(** C2. For every task that raises an error when invoked, the destructor of
    the owning guard returns normally: the call of the task raises, the
    destructor's result is [Done], the block that owns the guard completes
    normally, and the statement after that block is executed. *)
Theorem C2_task_error_never_leaves_destructor
    (T : Callable) (e : exn) (name : string) (next : Stmt) (st : State) :
  snd (c_body T (vars st)) = Some e ->
  call (Some T) st = (Raise e, after_call T st)
  /\ Defer_dtor {| m_task := Some T |} st = (Done tt, after_call T st)
  /\ exec_block [IDecl (declare name (Some T))] st = (Normal, after_call T st)
  /\ exec_block [IBlock [IDecl (declare name (Some T))]; IStmt next] st
     = exec_stmt next (after_call T st).
Proof.
  intros Hraise.
  assert (Hblock : exec_block [IDecl (declare name (Some T))] st
                   = (Normal, after_call T st)).
  { open_guard T. reflexivity. }
  split; [|split; [|split]].
  - rewrite call_some, Hraise. reflexivity.
  - apply Defer_dtor_some.
  - exact Hblock.
  - rewrite exec_block_nested, Hblock. simpl.
    apply exec_block_single_stmt.
Qed.

Lemma C2_witness :
  Defer_dtor {| m_task := task_of (blk_throw 4 "x" 13) |} st0
  = (Done tt, after_call (target_of (blk_throw 4 "x" 13)) st0).
Proof.
  refine (proj1 (proj2 (C2_task_error_never_leaves_destructor
            (target_of (blk_throw 4 "x" 13)) (user_exception 13)
            "guard" (assign 1 "y" 0) st0 _))).
  reflexivity.
Defined.

(** C10. A guard built from an empty [std::function]: calling the empty
    object raises [bad_function_call], the destructor catches it and
    returns normally leaving the state untouched, and execution goes on
    after the guard's block. *)
Theorem C10_empty_task_is_contained (name : string) (next : Stmt) (st : State) :
  call None st = (Raise bad_function_call, st)
  /\ Defer_dtor {| m_task := None |} st = (Done tt, st)
  /\ exec_block [IDecl (declare name None)] st = (Normal, st)
  /\ exec_block [IBlock [IDecl (declare name None)]; IStmt next] st
     = exec_stmt next st.
Proof.
  assert (Hblock : exec_block [IDecl (declare name None)] st = (Normal, st)).
  { rewrite (exec_block_decl _ [] _ st st (declare_init name None st)).
    reflexivity. }
  split; [|split; [|split]].
  - reflexivity.
  - apply Defer_dtor_none.
  - exact Hblock.
  - rewrite exec_block_nested, Hblock. simpl. apply exec_block_single_stmt.
Qed.

(** C8. Constructing a guard stores the task in it and does nothing else:
    the constructor (and [operator|], which forwards to it) returns the
    guard holding the task and the very same state, with no event added to
    the trace.  A block that constructs a guard and then aborts, so that
    the guard is never destroyed, shows no call at all. *)
Theorem C8_construction_only_stores_the_task
    (task : DeferTaskType) (name : string) (l : nat) (st : State) :
  Defer_ctor task st = (Done {| m_task := task |}, st)
  /\ operator_bitor mkDeferTaskTag task st = (Done {| m_task := task |}, st)
  /\ exec_block [IDecl (declare name task); IStmt (stmt_abort l)] st
     = (Aborted, {| vars := vars st; log := log st ++ [EvStmt l] |}).
Proof.
  split; [|split].
  - reflexivity.
  - reflexivity.
  - rewrite (exec_block_decl _ _ _ st st (declare_init name task st)).
    rewrite exec_block_single_stmt. reflexivity.
Qed.

(** C4. Once a guard is constructed, its task is invoked whichever way the
    rest of the scope is left: for any items following the marker, if they
    complete normally, by [return] or by a thrown error, the block as a
    whole completes the same way in the state obtained by calling the
    deferred block once more after them. *)
Theorem C4_invoked_on_every_exit_path
    (line : N) (body : Block) (rest : list Item)
    (st st1 : State) (c : Completion) :
  exec_block rest st = (c, st1) ->
  c = Normal \/ c = Returned \/ (exists e, c = Thrown e) ->
  exec_block (IDecl (defer line body) :: rest) st
    = (c, after_call (target_of body) st1).
Proof.
  intros Hrest Hpath.
  assert (Hc : c <> Aborted)
    by (destruct Hpath as [->|[->|[e ->]]]; discriminate).
  open_guard (target_of body). exact Hrest.
Qed.

Lemma C4_witness :
  exec_block [IDecl (defer 12 (blk_bump 7 "x")); IStmt (stmt_throw 1 42)] st0
  = (Thrown (user_exception 42),
     after_call (target_of (blk_bump 7 "x")) {| vars := ∅; log := [EvStmt 1] |}).
Proof.
  refine (C4_invoked_on_every_exit_path 12 (blk_bump 7 "x")
            [IStmt (stmt_throw 1 42)] st0 {| vars := ∅; log := [EvStmt 1] |}
            (Thrown (user_exception 42)) _ _).
  - reflexivity.
  - right. right. exists (user_exception 42). reflexivity.
Defined.

(** C3. Two guards declared in the same scope through the marker, with any
    statements before, between and after them: once both declarations have
    been reached, the scope ends by calling the block declared last and
    then the block declared first. *)
Theorem C3_same_scope_reverse_declaration_order
    (l1 l2 : N) (A B : Block) (pre mid post : list Stmt)
    (st sa sb sc : State) (c : Completion) :
  exec_stmts pre st = (Normal, sa) ->
  exec_stmts mid sa = (Normal, sb) ->
  exec_stmts post sb = (c, sc) ->
  c <> Aborted ->
  exec_block (map IStmt pre ++ IDecl (defer l1 A) :: map IStmt mid
                ++ IDecl (defer l2 B) :: map IStmt post) st
    = (c, after_call (target_of A) (after_call (target_of B) sc))
  /\ log (after_call (target_of A) (after_call (target_of B) sc))
     = log sc ++ [EvCall (b_label B); EvCall (b_label A)].
Proof.
  intros Hpre Hmid Hpost Hc. split.
  - rewrite (exec_block_stmts_then _ _ _ _ Hpre).
    open_guard (target_of A).
    rewrite (exec_block_stmts_then _ _ _ _ Hmid).
    open_guard (target_of B).
    rewrite exec_block_stmts. exact Hpost.
  - simpl. rewrite <- app_assoc. reflexivity.
Qed.

Lemma C3_witness :
  exec_block [IStmt (assign 4 "b" 0);
              IDecl (defer 10 (blk_bump 1 "a")); IStmt (assign 5 "a" 10);
              IDecl (defer 11 (blk_copy_var 2 "b" "a"));
              IStmt (stmt_return 6)] st0
  = (Returned,
     {| vars := {[ "a" := 11%Z; "b" := 10%Z ]};
        log := [EvStmt 4; EvStmt 5; EvStmt 6; EvCall 2; EvCall 1] |}).
Proof.
  refine (proj1 (C3_same_scope_reverse_declaration_order
            10 11 (blk_bump 1 "a") (blk_copy_var 2 "b" "a")
            [assign 4 "b" 0] [assign 5 "a" 10] [stmt_return 6]
            st0
            {| vars := {[ "b" := 0%Z ]}; log := [EvStmt 4] |}
            {| vars := {[ "a" := 10%Z; "b" := 0%Z ]};
               log := [EvStmt 4; EvStmt 5] |}
            {| vars := {[ "a" := 10%Z; "b" := 0%Z ]};
               log := [EvStmt 4; EvStmt 5; EvStmt 6] |}
            Returned _ _ _ _)).
  - reflexivity.
  - reflexivity.
  - reflexivity.
  - discriminate.
Defined.

(** C9. A guard declared in a nested block, inside a scope that declared a
    guard of its own: the inner block is called when the nested block is
    left, before any item that follows the nested block and before the
    enclosing scope's block, which is called last. *)
Theorem C9_nested_guard_runs_before_enclosing_guard
    (lo li : N) (A B : Block) (inner rest : list Item)
    (st st1 st2 : State) (c1 c2 : Completion) :
  exec_block inner st = (c1, st1) ->
  c1 <> Aborted ->
  continue_with c1 (after_call (target_of B) st1) rest = (c2, st2) ->
  c2 <> Aborted ->
  exec_block (IDecl (defer li B) :: inner) st
    = (c1, after_call (target_of B) st1)
  /\ exec_block (IDecl (defer lo A)
                   :: IBlock (IDecl (defer li B) :: inner) :: rest) st
     = (c2, after_call (target_of A) st2).
Proof.
  intros Hinner Hc1 Hrest Hc2.
  assert (Hnested : exec_block (IDecl (defer li B) :: inner) st
                    = (c1, after_call (target_of B) st1)).
  { open_guard (target_of B). exact Hinner. }
  split.
  - exact Hnested.
  - open_guard (target_of A).
    rewrite exec_block_nested, Hnested. exact Hrest.
Qed.

Lemma C9_witness :
  exec_block [IDecl (defer 20 (blk_bump 1 "outer"));
              IBlock [IDecl (defer 22 (blk_bump 2 "inner"));
                      IStmt (assign 5 "inner" 7)];
              IStmt (assign 6 "outer" 3)] st0
  = (Normal,
     {| vars := {[ "inner" := 8%Z; "outer" := 4%Z ]};
        log := [EvStmt 5; EvCall 2; EvStmt 6; EvCall 1] |}).
Proof.
  refine (proj2 (C9_nested_guard_runs_before_enclosing_guard
            20 22 (blk_bump 1 "outer") (blk_bump 2 "inner")
            [IStmt (assign 5 "inner" 7)] [IStmt (assign 6 "outer" 3)]
            st0 {| vars := {[ "inner" := 7%Z ]}; log := [EvStmt 5] |}
            {| vars := {[ "inner" := 8%Z; "outer" := 3%Z ]};
               log := [EvStmt 5; EvCall 2; EvStmt 6] |}
            Normal Normal _ _ _ _)).
  - reflexivity.
  - discriminate.
  - reflexivity.
  - discriminate.
Defined.

(** ** Capture *)

(** With [[&]] the closure does not depend on the values the variables had
    when the lambda expression was evaluated. *)
Lemma lambda_by_reference (body : Block) (site : gmap string Z) :
  lambda by_reference body site = target_of body.
Proof. reflexivity. Qed.

(** With [[=]] it would: the block would read the values of the
    registration point and leave the enclosing variables alone. *)
Example lambda_by_copy_is_a_snapshot :
  c_body (lambda by_copy (blk_copy_var 1 "y" "x") {[ "x" := 1%Z ]})
         {[ "x" := 2%Z ]}
  = ({[ "x" := 2%Z ]}, None).
Proof. reflexivity. Qed.

(** C7. The deferred block works on the enclosing variables themselves.
    The closure built at the marker is the same whatever the variables
    held at that point; when the scope is left after statements that
    changed the variables, the block is run on the variables as those
    statements left them, and what the block writes is what the code after
    the scope finds. *)
Theorem C7_block_captures_by_reference
    (line : N) (body : Block) (between : list Stmt) (after : Stmt)
    (st st1 : State) (c : Completion) :
  exec_stmts between st = (c, st1) ->
  c <> Aborted ->
  d_init (defer line body) st
    = (Done {| m_task := Some (lambda by_reference body (vars st1)) |}, st)
  /\ exec_block (IDecl (defer line body) :: map IStmt between) st
     = (c, {| vars := fst (b_run body (vars st1));
              log := log st1 ++ [EvCall (b_label body)] |})
  /\ (c = Normal ->
      exec_block [IBlock (IDecl (defer line body) :: map IStmt between);
                  IStmt after] st
      = exec_stmt after
          {| vars := fst (b_run body (vars st1));
             log := log st1 ++ [EvCall (b_label body)] |}).
Proof.
  intros Hbetween Hc.
  assert (Hscope : exec_block (IDecl (defer line body) :: map IStmt between) st
                   = (c, after_call (target_of body) st1)).
  { open_guard (target_of body). rewrite exec_block_stmts. exact Hbetween. }
  split; [|split].
  - reflexivity.
  - exact Hscope.
  - intros ->. rewrite exec_block_nested, Hscope. simpl.
    apply exec_block_single_stmt.
Qed.

Lemma C7_witness :
  exec_block [IDecl (defer 30 (blk_copy_var 1 "y" "x"));
              IStmt (assign 2 "x" 2)] {| vars := {[ "x" := 1%Z ]}; log := [] |}
  = (Normal, {| vars := {[ "x" := 2%Z; "y" := 2%Z ]};
                log := [EvStmt 2; EvCall 1] |}).
Proof.
  refine (proj1 (proj2 (C7_block_captures_by_reference
            30 (blk_copy_var 1 "y" "x") [assign 2 "x" 2] (assign 3 "z" 0)
            {| vars := {[ "x" := 1%Z ]}; log := [] |}
            {| vars := {[ "x" := 2%Z ]}; log := [EvStmt 2] |}
            Normal _ _))).
  - reflexivity.
  - discriminate.
Defined.

(** ** Names of the guards *)

Lemma N_to_uint_nonnil (n : N) : N.to_uint n <> Decimal.Nil.
Proof.
  destruct n as [|p]; simpl.
  - discriminate.
  - apply DecimalPos.Unsigned.to_uint_nonnil.
Qed.

Lemma __LINE___inj (a b : N) : __LINE__ a = __LINE__ b -> a = b.
Proof.
  unfold __LINE__. intros H.
  apply DecimalN.Unsigned.to_uint_inj.
  assert (Hsome : Some (N.to_uint a) = Some (N.to_uint b)).
  { rewrite <- (NilZero.usu (N.to_uint a)) by apply N_to_uint_nonnil.
    rewrite <- (NilZero.usu (N.to_uint b)) by apply N_to_uint_nonnil.
    rewrite H. reflexivity. }
  congruence.
Qed.

(** The generated name determines the line and the line the name. *)
Lemma __DEFER_NEWBIE___inj (a b : N) :
  __DEFER_NEWBIE__ a = __DEFER_NEWBIE__ b <-> a = b.
Proof.
  split; [|intros ->; reflexivity].
  unfold __DEFER_NEWBIE__, __DEFER_CONCAT__, __DEFER_CONCAT_HELPER_1__,
    __DEFER_CONCAT_HELPER_2__.
  intros H. apply __LINE___inj.
  exact (String.app_inj "__defer_newbie_" _ _ H).
Qed.

Lemma declared_names_markers (uses : list (N * Block)) :
  declared_names (markers uses) = map (fun u => __DEFER_NEWBIE__ (fst u)) uses.
Proof.
  induction uses as [|u uses IH]; simpl.
  - reflexivity.
  - f_equal. exact IH.
Qed.

Lemma markers_well_formed_items (uses : list (N * Block)) :
  forallb well_formed_item (markers uses) = true.
Proof. induction uses as [|u uses IH]; simpl; auto. Qed.

(** ** Scopes made of guard declarations only *)

Lemma call_all_snoc (Ts : list Callable) (T : Callable) (st : State) :
  call_all (Ts ++ [T]) st = after_call T (call_all Ts st).
Proof. unfold call_all. rewrite foldl_snoc. reflexivity. Qed.

Lemma log_call_all (Ts : list Callable) (st : State) :
  log (call_all Ts st) = log st ++ map (fun T => EvCall (c_label T)) Ts.
Proof.
  induction Ts as [|T Ts IH] using rev_ind.
  - simpl. rewrite app_nil_r. reflexivity.
  - rewrite call_all_snoc, map_app. simpl. rewrite IH, app_assoc. reflexivity.
Qed.

(** Declarations whose initialisers yield guards holding [Ts], in this
    order: at the end of the scope the targets are called last to first. *)
Lemma exec_block_guards (ds : list Decl) (Ts : list Callable) (st : State) :
  Forall2 (fun d T => forall s, d_init d s = (Done {| m_task := Some T |}, s))
          ds Ts ->
  exec_block (map IDecl ds) st = (Normal, call_all (rev Ts) st).
Proof.
  intros Hds. induction Hds as [|d T ds Ts Hd _ IH]; simpl.
  - reflexivity.
  - rewrite call_all_snoc.
    apply (exec_block_guard d T _ st st _ Normal);
      [apply Hd | exact IH | discriminate].
Qed.

Lemma exec_block_markers (uses : list (N * Block)) (st : State) :
  exec_block (markers uses) st
  = (Normal, call_all (rev (map (fun u => target_of (snd u)) uses)) st).
Proof.
  unfold markers.
  rewrite <- (map_map (fun u => defer (fst u) (snd u)) IDecl).
  apply exec_block_guards.
  induction uses as [|u uses IH]; simpl; constructor.
  - intros s. apply defer_init.
  - exact IH.
Qed.

(** When the markers used in one scope stand on different source lines,
    the names they declare are different, the scope compiles, and at its
    end every deferred block is called, the last declared first. *)
Lemma markers_on_distinct_lines_do_not_collide
    (uses : list (N * Block)) (st : State) :
  NoDup (map fst uses) ->
  NoDup (declared_names (markers uses))
  /\ well_formed (markers uses) = true
  /\ exec_block (markers uses) st
     = (Normal, call_all (rev (map (fun u => target_of (snd u)) uses)) st)
  /\ log (call_all (rev (map (fun u => target_of (snd u)) uses)) st)
     = log st ++ map (fun u => EvCall (b_label (snd u))) (rev uses).
Proof.
  intros Hlines.
  assert (Hnames : NoDup (declared_names (markers uses))).
  { rewrite declared_names_markers.
    rewrite <- (map_map fst __DEFER_NEWBIE__).
    apply (@NoDup_fmap_2 _ _ __DEFER_NEWBIE__
             (fun a b => proj1 (__DEFER_NEWBIE___inj a b))).
    exact Hlines. }
  split; [|split; [|split]].
  - exact Hnames.
  - unfold well_formed. simpl.
    rewrite markers_well_formed_items, andb_true_r.
    apply bool_decide_eq_true. exact Hnames.
  - apply exec_block_markers.
  - rewrite log_call_all, <- map_rev, map_map. reflexivity.
Qed.

Example markers_on_lines_10_and_11 :
  well_formed (markers [(10%N, blk_bump 1 "x"); (11%N, blk_bump 2 "y")]) = true
  /\ log (snd (exec_block
                 (markers [(10%N, blk_bump 1 "x"); (11%N, blk_bump 2 "y")]) st0))
     = [EvCall 2; EvCall 1].
Proof.
  destruct (markers_on_distinct_lines_do_not_collide
              [(10%N, blk_bump 1 "x"); (11%N, blk_bump 2 "y")] st0)
    as (_ & Hwf & Hexec & Hlog).
  - apply (bool_decide_eq_true_1 (NoDup [10%N; 11%N])). reflexivity.
  - split; [exact Hwf|]. rewrite Hexec. exact Hlog.
Qed.

(** C5.  The helper macros are there, in the header's words, "for
    generating unique variable names", but the name they build depends on
    the line only: two markers standing on one source line of a scope
    declare the same name, whatever the line and the deferred blocks, and
    the scope does not compile. *)
Theorem C5_markers_on_one_line_collide (line : N) (A B : Block) :
  d_name (defer line A) = d_name (defer line B)
  /\ well_formed [IDecl (defer line A); IDecl (defer line B)] = false.
Proof.
  split; [reflexivity|].
  change (bool_decide (NoDup [__DEFER_NEWBIE__ line; __DEFER_NEWBIE__ line])
          && true = false).
  rewrite andb_true_r.
  apply bool_decide_eq_false. intros Hnodup.
  apply NoDup_cons in Hnodup as [Hnotin _].
  apply Hnotin. left.
Qed.

(** [defer { x += 1; }; defer { y += 1; };] written on line 7. *)
Example two_markers_on_line_7 :
  d_name (defer 7 (blk_bump 1 "x")) = "__defer_newbie_7"
  /\ d_name (defer 7 (blk_bump 2 "y")) = "__defer_newbie_7"
  /\ well_formed [IDecl (defer 7 (blk_bump 1 "x"));
                  IDecl (defer 7 (blk_bump 2 "y"))] = false.
Proof. split; [|split]; reflexivity. Qed.

(** ** Copies of a guard *)

Lemma Defer_copy_ctor_same (g : Defer) (st : State) :
  Defer_copy_ctor g st = (Done g, st).
Proof. destruct g. reflexivity. Qed.

Lemma calls_of_call_all_replicate (T : Callable) (n : nat) (st : State) :
  calls_of (c_label T) (log (call_all (replicate n T) st))
  = calls_of (c_label T) (log st) + n.
Proof.
  induction n as [|n IH].
  - simpl. lia.
  - rewrite replicate_S_end, call_all_snoc, calls_of_after_call, IH. lia.
Qed.

Lemma rev_replicate (T : Callable) (n : nat) :
  rev (replicate n T) = replicate n T.
Proof.
  induction n as [|n IH].
  - reflexivity.
  - rewrite replicate_S at 1. simpl. rewrite IH, <- replicate_S_end. reflexivity.
Qed.

(** C6, as the code has it.  The constructor moves the task out of its
    parameter into the guard.  The class declares no copy operation and
    deletes none, so the implicit copy constructor and copy assignment are
    there (and no move constructor): a copy holds the same task as its
    source, an assignment replaces the task held, and a scope holding a
    guard and copies of it calls the task once for each of these
    instances.  A guard declared through the marker is [const] and cannot
    be assigned to; one declared by hand can. *)
Theorem C6_guard_is_copyable_and_each_instance_fires
    (task : DeferTaskType) (T : Callable) (g other : Defer)
    (name : string) (copies : list string) (line : N) (body : Block)
    (st : State) :
  (Defer_ctor task st = (Done {| m_task := task |}, st)
   /\ snd (std_move task) = None)
  /\ (copy_constructible Defer_class = true
      /\ copy_assignable Defer_class = true
      /\ has_move_ctor Defer_class = false)
  /\ (Defer_copy_ctor g st = (Done g, st)
      /\ Defer_copy_assign g other st = (Done other, st))
  /\ (exec_block
        (map IDecl
           (declare name (Some T)
              :: map (fun n => declare_copy n {| m_task := Some T |}) copies))
        st
      = (Normal, call_all (replicate (S (length copies)) T) st)
      /\ calls_of (c_label T)
           (log (call_all (replicate (S (length copies)) T) st))
         = calls_of (c_label T) (log st) + S (length copies))
  /\ (assignable (defer line body) = false
      /\ assignable (declare name task) = true).
Proof.
  split; [|split; [|split; [|split]]].
  - split; reflexivity.
  - repeat split.
  - split; [apply Defer_copy_ctor_same | destruct other; reflexivity].
  - split; [|apply calls_of_call_all_replicate].
    rewrite <- (rev_replicate T (S (length copies))).
    apply exec_block_guards. simpl. constructor.
    + intros s. reflexivity.
    + induction copies as [|n copies IH]; simpl; constructor.
      * intros s. reflexivity.
      * exact IH.
  - split; reflexivity.
Qed.

(** C6, as the claim is worded, fails: [Defer] is copy constructible, and
    in [{ Defer g(task); Defer h = g; }] two guards hold the task at the
    same time and the task runs twice. *)
Lemma C6_counterexample :
  copy_constructible Defer_class = true
  /\ Defer_copy_ctor {| m_task := task_of (blk_bump 1 "x") |} st0
     = (Done {| m_task := task_of (blk_bump 1 "x") |}, st0)
  /\ exec_block
       [IDecl (declare "g" (task_of (blk_bump 1 "x")));
        IDecl (declare_copy "h" {| m_task := task_of (blk_bump 1 "x") |})]
       st0
     = (Normal, {| vars := {[ "x" := 2%Z ]}; log := [EvCall 1; EvCall 1] |}).
Proof. split; [|split]; reflexivity. Qed.

(** ** Scenarios *)

(** Acquire [r1], guard its release, acquire [r2], guard its release, work,
    return early: both are released once, [r2] first. *)
Example release_in_reverse_on_early_return :
  exec_block
    [IStmt (assign 1 "r1" 1);
     IDecl (defer 3 {| b_label := 10;
                       b_run := fun env => (<["r1" := 0%Z]> env, None) |});
     IStmt (assign 2 "r2" 1);
     IDecl (defer 5 {| b_label := 20;
                       b_run := fun env => (<["r2" := 0%Z]> env, None) |});
     IStmt (stmt_return 3);
     IStmt (assign 4 "unreached" 1)] st0
  = (Returned,
     {| vars := {[ "r1" := 0%Z; "r2" := 0%Z ]};
        log := [EvStmt 1; EvStmt 2; EvStmt 3; EvCall 20; EvCall 10] |}).
Proof. reflexivity. Qed.

(** A marker that is never reached declares no guard. *)
Example marker_after_return_never_fires :
  exec_block [IStmt (stmt_return 1); IDecl (defer 4 (blk_bump 9 "x"))] st0
  = (Returned, {| vars := ∅; log := [EvStmt 1] |}).
Proof. reflexivity. Qed.

(** Falling off the end, and an error raised by the deferred block itself
    while another error is propagating. *)
Example fall_through_fires :
  exec_block [IDecl (defer 4 (blk_bump 9 "x")); IStmt (assign 1 "x" 1)] st0
  = (Normal, {| vars := {[ "x" := 2%Z ]}; log := [EvStmt 1; EvCall 9] |}).
Proof. reflexivity. Qed.

Example throwing_block_during_unwinding :
  exec_block [IDecl (defer 4 (blk_throw 9 "x" 1)); IStmt (stmt_throw 1 2)] st0
  = (Thrown (user_exception 2),
     {| vars := {[ "x" := 1%Z ]}; log := [EvStmt 1; EvCall 9] |}).
Proof. reflexivity. Qed.

(** The process is ended without unwinding: nothing is called. *)
Example abort_bypasses_the_guard :
  exec_block [IDecl (defer 4 (blk_bump 9 "x")); IStmt (stmt_abort 1)] st0
  = (Aborted, {| vars := ∅; log := [EvStmt 1] |}).
Proof. reflexivity. Qed.

(** * Further properties of the header *)

(** ** The generated names *)

(** X1. A scope made of marker uses compiles exactly when no two of the
    markers stand on the same source line. *)
Theorem X1_flat_scope_compiles_iff_lines_distinct (uses : list (N * Block)) :
  well_formed (markers uses) = true <-> NoDup (map fst uses).
Proof.
  unfold well_formed. simpl.
  rewrite markers_well_formed_items, andb_true_r, bool_decide_eq_true.
  rewrite declared_names_markers, <- (map_map fst __DEFER_NEWBIE__).
  apply (@NoDup_fmap _ _ __DEFER_NEWBIE__
           (fun a b => proj1 (__DEFER_NEWBIE___inj a b))).
Qed.

Lemma all_chars_app (p : Ascii.ascii -> bool) (s t : string) :
  all_chars p (s +:+ t) = all_chars p s && all_chars p t.
Proof.
  induction s as [|a s IH]; simpl.
  - reflexivity.
  - rewrite IH, andb_assoc. reflexivity.
Qed.

Lemma all_chars_weaken (p q : Ascii.ascii -> bool) (s : string) :
  (forall a, p a = true -> q a = true) ->
  all_chars p s = true -> all_chars q s = true.
Proof.
  intros Hpq. induction s as [|a s IH]; simpl.
  - reflexivity.
  - intros [Ha Hs]%andb_true_iff. rewrite (Hpq a Ha), (IH Hs). reflexivity.
Qed.

Lemma digits_of_uint (d : Decimal.uint) :
  all_chars is_digit (NilEmpty.string_of_uint d) = true.
Proof. induction d; simpl; try rewrite IHd; reflexivity. Qed.

Lemma __LINE___digits (line : N) :
  all_chars is_digit (__LINE__ line) = true /\ __LINE__ line <> "".
Proof.
  unfold __LINE__. pose proof (digits_of_uint (N.to_uint line)) as Hd.
  destruct (N.to_uint line); simpl in *; split;
    solve [reflexivity | exact Hd | discriminate].
Qed.

(** X3. For every line number the generated name is the fixed prefix
    followed by one or more decimal digits, hence a well-formed identifier. *)
Theorem X3_generated_name_is_an_identifier (line : N) :
  is_identifier (__DEFER_NEWBIE__ line) = true
  /\ exists digits,
       __DEFER_NEWBIE__ line = "__defer_newbie_" +:+ digits
       /\ digits <> ""
       /\ all_chars is_digit digits = true.
Proof.
  destruct (__LINE___digits line) as [Hd Hne].
  split.
  - unfold __DEFER_NEWBIE__, __DEFER_CONCAT__, __DEFER_CONCAT_HELPER_1__,
      __DEFER_CONCAT_HELPER_2__.
    change (all_chars (fun c => is_nondigit c || is_digit c)
              ("_defer_newbie_" +:+ __LINE__ line) = true).
    rewrite all_chars_app. apply andb_true_iff. split; [reflexivity|].
    apply (all_chars_weaken is_digit); [|exact Hd].
    intros a Ha. rewrite Ha. apply orb_true_r.
  - exists (__LINE__ line). split; [reflexivity|]. split; assumption.
Qed.

(** ** Reaching and not reaching the guard *)

Lemma total_calls_app (tr1 tr2 : list Event) :
  total_calls (tr1 ++ tr2) = total_calls tr1 + total_calls tr2.
Proof.
  induction tr1 as [|[l|l] tr1 IH]; simpl; rewrite ?IH; reflexivity.
Qed.

Lemma total_calls_exec_stmt (s : Stmt) (st : State) :
  total_calls (log (snd (exec_stmt s st))) = total_calls (log st).
Proof.
  unfold exec_stmt. destruct (s_run s (vars st)) as [v c]. simpl.
  rewrite total_calls_app. simpl. lia.
Qed.

Lemma total_calls_after_call (T : Callable) (st : State) :
  total_calls (log (after_call T st)) = S (total_calls (log st)).
Proof. unfold after_call. simpl. rewrite total_calls_app. simpl. lia. Qed.

(** X5. When the code after the marker ends the process without unwinding,
    the deferred block is not run: the scope ends in the very state in
    which the process was ended. *)
Theorem X5_abort_skips_the_deferred_block
    (line : N) (body : Block) (rest : list Item) (st st1 : State) :
  exec_block rest st = (Aborted, st1) ->
  exec_block (IDecl (defer line body) :: rest) st = (Aborted, st1).
Proof.
  intros Hrest.
  rewrite (exec_block_decl _ _ _ st st (defer_init line body st)), Hrest.
  apply unwind_aborted.
Qed.

Lemma X5_witness :
  exec_block [IDecl (defer 4 (blk_bump 9 "x"));
              IBlock [IStmt (assign 1 "x" 3); IStmt (stmt_abort 2)]] st0
  = (Aborted, {| vars := {[ "x" := 3%Z ]}; log := [EvStmt 1; EvStmt 2] |}).
Proof.
  refine (X5_abort_skips_the_deferred_block 4 (blk_bump 9 "x")
            [IBlock [IStmt (assign 1 "x" 3); IStmt (stmt_abort 2)]] st0
            {| vars := {[ "x" := 3%Z ]}; log := [EvStmt 1; EvStmt 2] |} _).
  reflexivity.
Defined.

(** ** Whole scopes *)

Lemma exec_block_stmt_normal (s : Stmt) (rest : list Item) (st st' : State) :
  exec_stmt s st = (Normal, st') ->
  exec_block (IStmt s :: rest) st = exec_block rest st'.
Proof. intros H. unfold exec_block. simpl. rewrite H. reflexivity. Qed.

Lemma exec_block_stmt_exit (s : Stmt) (rest : list Item) (st st' : State)
    (c : Completion) :
  exec_stmt s st = (c, st') ->
  c <> Normal ->
  exec_block (IStmt s :: rest) st = (c, st').
Proof.
  intros H Hc. unfold exec_block. simpl. rewrite H.
  destruct c; try reflexivity. congruence.
Qed.

(** X7. A scope of statements and markers in any order, left in any way
    but by ending the process: the statements run in their order as if
    the markers were not there, then the deferred blocks whose marker was
    reached run, the last reached first.  When every statement completes
    normally all markers are reached. *)
Theorem X7_scope_runs_statements_then_reached_blocks_in_reverse
    (xs : list (Stmt + N * Block)) (st s1 : State) (c : Completion) :
  exec_stmts (flat_stmts xs) st = (c, s1) ->
  c <> Aborted ->
  exec_block (map flat_item xs) st
    = (c, call_all (rev (reached_targets xs st)) s1)
  /\ (c = Normal -> reached_targets xs st = flat_targets xs).
Proof.
  revert st. induction xs as [|[s|u] xs IH]; intros st Hstmts Hc.
  - simpl in Hstmts. injection Hstmts as <- <-. split; reflexivity.
  - simpl in Hstmts |- *.
    destruct (exec_stmt s st) as [c' st'] eqn:Hs.
    destruct (decide (c' = Normal)) as [->|Hexit].
    + destruct (IH st' Hstmts Hc) as [Hrun Hall].
      rewrite (exec_block_stmt_normal _ _ _ _ Hs). split; assumption.
    + assert (Hsame : (c', st') = (c, s1)) by (destruct c'; congruence).
      injection Hsame as -> ->.
      rewrite (exec_block_stmt_exit _ _ _ _ _ Hs Hexit).
      split; [destruct c; try reflexivity; congruence | congruence].
  - simpl in Hstmts |- *.
    destruct (IH st Hstmts Hc) as [Hrun Hall]. split.
    + rewrite call_all_snoc. open_guard (target_of (snd u)). exact Hrun.
    + intros Hn. rewrite (Hall Hn). reflexivity.
Qed.

Lemma X7_witness :
  exec_block
    (map flat_item
       [inr (3%N, blk_bump 10 "a"); inl (assign 1 "a" 5);
        inr (5%N, blk_copy_var 20 "b" "a"); inl (stmt_return 2);
        inr (7%N, blk_bump 30 "c")]) st0
  = (Returned,
     {| vars := {[ "a" := 6%Z; "b" := 5%Z ]};
        log := [EvStmt 1; EvStmt 2; EvCall 20; EvCall 10] |}).
Proof.
  refine (proj1 (X7_scope_runs_statements_then_reached_blocks_in_reverse
            [inr (3%N, blk_bump 10 "a"); inl (assign 1 "a" 5);
             inr (5%N, blk_copy_var 20 "b" "a"); inl (stmt_return 2);
             inr (7%N, blk_bump 30 "c")]
            st0 {| vars := {[ "a" := 5%Z ]}; log := [EvStmt 1; EvStmt 2] |}
            Returned _ _)).
  - reflexivity.
  - discriminate.
Defined.


(** ** Assignment between guards *)

(** X8. After [a = b] between two hand-declared guards, leaving the scope
    calls the task of [b] twice and the task [a] was built with not at
    all. *)
Theorem X8_assignment_drops_the_overwritten_task
    (T1 T2 : Callable) (st : State) :
  c_label T1 <> c_label T2 ->
  assign_then_leave (Some T1) (Some T2) st
    = (Done tt, after_call T2 (after_call T2 st))
  /\ calls_of (c_label T1) (log (after_call T2 (after_call T2 st)))
     = calls_of (c_label T1) (log st)
  /\ calls_of (c_label T2) (log (after_call T2 (after_call T2 st)))
     = 2 + calls_of (c_label T2) (log st).
Proof.
  intros Hne. split; [|split].
  - unfold assign_then_leave, bind. simpl.
    rewrite !Defer_dtor_some. reflexivity.
  - unfold after_call. simpl. rewrite !calls_of_app.
    unfold calls_of at 2 3.
    rewrite !count_occ_cons_neq by congruence. simpl. lia.
  - rewrite !calls_of_after_call. reflexivity.
Qed.

Lemma X8_witness :
  assign_then_leave (task_of (blk_bump 1 "first"))
                    (task_of (blk_bump 2 "second")) st0
  = (Done tt, {| vars := {[ "second" := 2%Z ]};
                 log := [EvCall 2; EvCall 2] |}).
Proof.
  refine (proj1 (X8_assignment_drops_the_overwritten_task
            (target_of (blk_bump 1 "first")) (target_of (blk_bump 2 "second"))
            st0 _)).
  simpl. lia.
Defined.

(** ** Code of any shape *)

Lemma unwind_completion (locals : list Defer) (c : Completion) (st : State) :
  fst (unwind locals c st) = c.
Proof.
  destruct (decide (c = Aborted)) as [->|Hc]; [reflexivity|].
  revert st. induction locals as [|g older IH]; intros st.
  - rewrite unwind_nil. reflexivity.
  - rewrite unwind_cons by assumption. apply IH.
Qed.

Lemma unwind_calls (locals : list Defer) (c : Completion) (st : State) :
  Forall (fun g => is_Some (m_task g)) locals ->
  c <> Aborted ->
  total_calls (log (snd (unwind locals c st)))
  = total_calls (log st) + length locals.
Proof.
  intros Hlocals Hc. revert st.
  induction Hlocals as [|g older [T HT] _ IH]; intros st.
  - rewrite unwind_nil. simpl. lia.
  - rewrite unwind_cons by assumption.
    destruct g as [task]. simpl in HT. subst task.
    rewrite Defer_dtor_some, IH. simpl snd.
    rewrite total_calls_after_call. simpl. lia.
Qed.

Lemma run_seq_calls (body : list Item) :
  Forall (fun i => only_markers_item i -> counts_calls i) body ->
  only_markers body ->
  forall (locals : list Defer) (st : State),
    Forall (fun g => is_Some (m_task g)) locals ->
    total_calls (log (snd (run_seq (map exec_item body) locals st)))
    <= total_calls (log st) + guards_in body + length locals
    /\ (fst (run_seq (map exec_item body) locals st) = Normal ->
        total_calls (log (snd (run_seq (map exec_item body) locals st)))
        = total_calls (log st) + guards_in body + length locals).
Proof.
  unfold only_markers, guards_in.
  induction 1 as [|i body Hi _ IH]; intros Hm locals st Hlocals.
  - simpl. rewrite unwind_calls by (assumption || discriminate).
    split; [lia | intros _; lia].
  - destruct Hm as [Hmi Hm]. specialize (IH Hm). specialize (Hi Hmi st).
    change (guards_in_item (IBlock (i :: body)))
      with (guards_in_item i + guards_in_item (IBlock body)).
    simpl run_seq.
    destruct (exec_item i st) as [g st'|c st'].
    + destruct Hi as (Hone & Hsome & ->).
      assert (Hlocals' : Forall (fun g => is_Some (m_task g)) (g :: locals))
        by (constructor; assumption).
      destruct (IH (g :: locals) st Hlocals') as [Hle Heq].
      simpl length in *. split; [lia | intros Hn; rewrite (Heq Hn); lia].
    + destruct Hi as [Hle Heq].
      destruct (decide (c = Normal)) as [->|Hexit].
      * specialize (Heq eq_refl).
        destruct (IH locals st' Hlocals) as [Hle' Heq'].
        split; [lia | intros Hn; rewrite (Heq' Hn); lia].
      * assert (Hrun : (match c with
                        | Normal => run_seq (map exec_item body) locals st'
                        | _ => unwind locals c st'
                        end) = unwind locals c st')
          by (destruct c; try reflexivity; congruence).
        rewrite Hrun. split.
        -- destruct (decide (c = Aborted)) as [->|Hc].
           ++ rewrite unwind_aborted. simpl. lia.
           ++ rewrite unwind_calls by assumption. lia.
        -- rewrite unwind_completion. congruence.
Qed.

Lemma exec_item_counts_calls (i : Item) :
  only_markers_item i -> counts_calls i.
Proof.
  induction i as [s|d|body IH] using Item_nested_ind; intros Hm st.
  - simpl. pose proof (total_calls_exec_stmt s st) as Hs.
    destruct (exec_stmt s st) as [c st']. simpl in Hs.
    split; [lia | intros _; lia].
  - destruct Hm as (line & blk & ->). simpl.
    split; [reflexivity|]. split; [eexists|]; reflexivity.
  - pose proof (run_seq_calls body IH Hm [] st
                  (List.Forall_nil (fun g => is_Some (m_task g)))) as H.
    simpl exec_item.
    destruct (run_seq (map exec_item body) [] st) as [c st'].
    simpl in H. unfold guards_in in H.
    destruct H as [Hle Heq]. split; [lia | intros Hn; rewrite (Heq Hn); lia].
Qed.

(** X6. Straight-line code: statements, markers and nested blocks, each
    written once in sequence, with no loop or branch around a marker.  In
    such code the deferred blocks are never called more often than there
    are markers, however the code is left; when the code completes
    normally the number of calls is the number of markers. *)
Theorem X6_calls_bounded_by_markers
    (body : list Item) (st st' : State) (c : Completion) :
  only_markers body ->
  exec_block body st = (c, st') ->
  total_calls (log st') <= total_calls (log st) + guards_in body
  /\ (c = Normal ->
      total_calls (log st') = total_calls (log st) + guards_in body).
Proof.
  intros Hm Hrun.
  pose proof (exec_item_counts_calls (IBlock body) Hm st) as H.
  simpl in H. fold (exec_block body st) in H. rewrite Hrun in H.
  exact H.
Qed.

Lemma X6_witness :
  total_calls
    (log (snd (exec_block
                 [IDecl (defer 1 (blk_bump 1 "x"));
                  IBlock [IDecl (defer 2 (blk_throw 2 "x" 7));
                          IStmt (stmt_return 3);
                          IDecl (defer 4 (blk_bump 4 "x"))]] st0)))
  <= 3.
Proof.
  refine (proj1 (X6_calls_bounded_by_markers
            [IDecl (defer 1 (blk_bump 1 "x"));
             IBlock [IDecl (defer 2 (blk_throw 2 "x" 7));
                     IStmt (stmt_return 3);
                     IDecl (defer 4 (blk_bump 4 "x"))]]
            st0 _ Returned _ _)).
  - simpl. repeat split; eexists; eexists; reflexivity.
  - reflexivity.
Defined.

Lemma unwind_guards (pending : list Block) (c : Completion) (st : State) :
  c <> Aborted ->
  unwind (map guard_of pending) c st
  = (c, call_all (map target_of pending) st).
Proof.
  intros Hc. revert st. induction pending as [|b pending IH]; intros st.
  - apply unwind_nil.
  - change (map guard_of (b :: pending))
      with ({| m_task := Some (target_of b) |} :: map guard_of pending).
    rewrite unwind_cons by assumption.
    rewrite Defer_dtor_some. apply IH.
Qed.

Lemma log_call_all_blocks (pending : list Block) (st : State) :
  log (call_all (map target_of pending) st) = log st ++ call_events pending.
Proof. rewrite log_call_all, map_map. reflexivity. Qed.

Lemma run_seq_code_trace (body : list Code) :
  Forall (fun c =>
            quiet_item (to_item c) ->
            forall st k st',
              exec_item (to_item c) st = Completed k st' ->
              k = Normal /\ log st' = log st ++ code_trace c) body ->
  quiet (map to_item body) ->
  forall (pending : list Block) (st : State),
    fst (run_seq (map exec_item (map to_item body)) (map guard_of pending) st)
    = Normal
    /\ log (snd (run_seq (map exec_item (map to_item body))
                   (map guard_of pending) st))
       = log st ++ flat_map code_trace body
           ++ call_events (rev (direct_markers body) ++ pending).
Proof.
  unfold quiet.
  induction 1 as [|c body Hc _ IH]; intros Hq pending st.
  - simpl. rewrite unwind_guards by discriminate. simpl.
    split; [reflexivity | apply log_call_all_blocks].
  - destruct Hq as [Hqc Hq]. specialize (IH Hq). specialize (Hc Hqc st).
    destruct c as [s|line b|inner].
    + simpl in Hc |- *. destruct (exec_stmt s st) as [k st'].
      destruct (Hc k st' eq_refl) as [-> Hlog].
      destruct (IH pending st') as [Hn Hl]. split; [exact Hn|].
      rewrite Hl, Hlog, <- !app_assoc. reflexivity.
    + clear Hc. destruct (IH (b :: pending) st) as [Hn Hl].
      split; [exact Hn|].
      change (log (snd (run_seq (map exec_item (map to_item body))
                          (map guard_of (b :: pending)) st))
              = log st ++ flat_map code_trace body
                  ++ call_events ((rev (direct_markers body) ++ [b]) ++ pending)).
      rewrite Hl, <- (app_assoc _ [b] pending). reflexivity.
    + simpl in Hc.
      change (map exec_item (map to_item (CBlock inner :: body)))
        with (exec_item (IBlock (map to_item inner))
                :: map exec_item (map to_item body)).
      simpl run_seq. simpl exec_item.
      destruct (run_seq (map exec_item (map to_item inner)) [] st)
        as [k st'].
      destruct (Hc k st' eq_refl) as [-> Hlog].
      destruct (IH pending st') as [Hn Hl]. split; [exact Hn|].
      rewrite Hl, Hlog.
      change (flat_map code_trace (CBlock inner :: body))
        with ((flat_map code_trace inner
                 ++ call_events (rev (direct_markers inner)))
                ++ flat_map code_trace body).
      change (direct_markers (CBlock inner :: body))
        with (direct_markers body).
      rewrite <- !app_assoc. reflexivity.
Qed.

Lemma exec_item_code_trace (c : Code) :
  quiet_item (to_item c) ->
  forall st k st',
    exec_item (to_item c) st = Completed k st' ->
    k = Normal /\ log st' = log st ++ code_trace c.
Proof.
  induction c as [s|line b|inner IH] using Code_nested_ind;
    intros Hq st k st' Hrun.
  - simpl in Hrun, Hq. unfold exec_stmt in Hrun. specialize (Hq (vars st)).
    destruct (s_run s (vars st)) as [v k']. simpl in Hq. subst k'.
    injection Hrun as <- <-. split; reflexivity.
  - discriminate Hrun.
  - destruct (run_seq_code_trace inner IH Hq [] st) as [Hn Hl].
    simpl in Hrun, Hn, Hl.
    destruct (run_seq (map exec_item (map to_item inner)) [] st)
      as [k' st''].
    injection Hrun as <- <-. simpl in Hn, Hl.
    rewrite app_nil_r in Hl. split; [exact Hn | exact Hl].
Qed.

Lemma direct_markers_cons (c : Code) (body : list Code) :
  direct_markers (c :: body) = direct_markers [c] ++ direct_markers body.
Proof. unfold direct_markers. simpl. rewrite app_nil_r. reflexivity. Qed.

Lemma calls_of_call_events_app (l : nat) (bs1 bs2 : list Block) :
  calls_of l (call_events (bs1 ++ bs2))
  = calls_of l (call_events bs1) + calls_of l (call_events bs2).
Proof. unfold call_events. rewrite map_app. apply calls_of_app. Qed.

Lemma calls_of_call_events_rev (l : nat) (bs : list Block) :
  calls_of l (call_events (rev bs)) = calls_of l (call_events bs).
Proof.
  unfold call_events, calls_of. rewrite map_rev. apply count_occ_rev.
Qed.

Lemma calls_of_block_trace (l : nat) (body : list Code) :
  Forall (fun c => calls_of l (code_trace c)
                   + calls_of l (call_events (direct_markers [c]))
                   = markers_labelled l c) body ->
  calls_of l (flat_map code_trace body)
  + calls_of l (call_events (direct_markers body))
  = foldr (fun c n => markers_labelled l c + n) 0 body.
Proof.
  induction 1 as [|c body Hc _ IH]; [reflexivity|].
  change (flat_map code_trace (c :: body))
    with (code_trace c ++ flat_map code_trace body).
  rewrite direct_markers_cons, calls_of_call_events_app, calls_of_app.
  simpl foldr. rewrite <- IH, <- Hc. lia.
Qed.

Lemma calls_of_code_trace (l : nat) (c : Code) :
  calls_of l (code_trace c) + calls_of l (call_events (direct_markers [c]))
  = markers_labelled l c.
Proof.
  induction c as [s|line b|inner IH] using Code_nested_ind.
  - reflexivity.
  - change (calls_of l [] + calls_of l [EvCall (b_label b)]
            = if Nat.eqb (b_label b) l then 1 else 0).
    unfold calls_of.
    destruct (Nat.eqb_spec (b_label b) l) as [Heq|Hne].
    + rewrite count_occ_cons_eq by (rewrite Heq; reflexivity). reflexivity.
    + rewrite count_occ_cons_neq by congruence. reflexivity.
  - pose proof (calls_of_block_trace l inner IH) as H.
    change (calls_of l (flat_map code_trace inner
                          ++ call_events (rev (direct_markers inner)))
            + 0
            = foldr (fun c n => markers_labelled l c + n) 0 inner).
    rewrite calls_of_app, calls_of_call_events_rev, H. lia.
Qed.

(** X9. Straight-line code written with the marker (statements, markers
    and nested blocks, no loop or branch) whose statements complete
    normally.  Whether its deferred blocks return or throw, the code
    completes normally and its trace is the statements in order with, at
    the end of each block, the calls of the blocks deferred in it, last
    declared first; so for every label the deferred blocks that carry it
    are called once for each of their markers.  An error thrown by a
    deferred block never becomes the way a scope is left and never keeps
    another deferred block from running. *)
Theorem X9_errors_of_deferred_blocks_never_surface
    (body : list Code) (st : State) :
  quiet (map to_item body) ->
  fst (exec_block (map to_item body) st) = Normal
  /\ log (snd (exec_block (map to_item body) st))
     = log st ++ code_trace (CBlock body)
  /\ forall l,
       calls_of l (log (snd (exec_block (map to_item body) st)))
       = calls_of l (log st) + markers_labelled l (CBlock body).
Proof.
  intros Hq.
  pose proof (exec_item_code_trace (CBlock body) Hq st) as H.
  simpl in H. fold (exec_block (map to_item body) st) in H.
  destruct (exec_block (map to_item body) st) as [k st'].
  destruct (H k st' eq_refl) as [-> Hlog]. simpl.
  split; [reflexivity|]. split; [exact Hlog|].
  intros l. rewrite Hlog, calls_of_app.
  pose proof (calls_of_code_trace l (CBlock body)) as Hc.
  simpl in Hc |- *. unfold calls_of in Hc at 2. simpl in Hc. lia.
Qed.

Lemma X9_witness :
  exec_block
    (map to_item
       [CMarker 1 (blk_throw 1 "x" 11);
        CStmt (assign 5 "x" 0);
        CBlock [CMarker 2 (blk_throw 2 "x" 12);
                CMarker 3 (blk_throw 1 "x" 13)];
        CStmt (assign 6 "y" 0)]) st0
  = (Normal, {| vars := {[ "x" := 3%Z; "y" := 0%Z ]};
                log := [EvStmt 5; EvCall 1; EvCall 2; EvStmt 6; EvCall 1] |})
  /\ log (snd (exec_block
                 (map to_item
                    [CMarker 1 (blk_throw 1 "x" 11);
                     CStmt (assign 5 "x" 0);
                     CBlock [CMarker 2 (blk_throw 2 "x" 12);
                             CMarker 3 (blk_throw 1 "x" 13)];
                     CStmt (assign 6 "y" 0)]) st0))
     = log st0 ++ [EvStmt 5; EvCall 1; EvCall 2; EvStmt 6; EvCall 1].
Proof.
  split; [reflexivity|].
  refine (proj1 (proj2 (X9_errors_of_deferred_blocks_never_surface
            [CMarker 1 (blk_throw 1 "x" 11);
             CStmt (assign 5 "x" 0);
             CBlock [CMarker 2 (blk_throw 2 "x" 12);
                     CMarker 3 (blk_throw 1 "x" 13)];
             CStmt (assign 6 "y" 0)] st0 _))).
  simpl. repeat split.
Defined.

(** X10. Blocks written side by side, each with one marker: every
    deferred block runs when its own block ends, so the blocks run in the
    order in which they are written, the reverse of what the same markers
    give in a single scope; and such code compiles whatever the lines. *)
Theorem X10_sibling_scopes_run_in_textual_order
    (uses : list (N * Block)) (st : State) :
  well_formed (sibling_markers uses) = true
  /\ exec_block (sibling_markers uses) st
     = (Normal, call_all (map (fun u => target_of (snd u)) uses) st)
  /\ exec_block (markers uses) st
     = (Normal, call_all (rev (map (fun u => target_of (snd u)) uses)) st).
Proof.
  split; [|split].
  - unfold well_formed. simpl.
    assert (Hnames : declared_names (sibling_markers uses) = []).
    { induction uses as [|u uses IH]; [reflexivity | exact IH]. }
    rewrite Hnames. clear Hnames.
    induction uses as [|u uses IH]; [reflexivity|].
    simpl in *. exact IH.
  - revert st. induction uses as [|u uses IH]; intros st; [reflexivity|].
    change (sibling_markers (u :: uses))
      with (IBlock [IDecl (defer (fst u) (snd u))] :: sibling_markers uses).
    rewrite exec_block_nested.
    assert (Hone : exec_block [IDecl (defer (fst u) (snd u))] st
                   = (Normal, after_call (target_of (snd u)) st))
      by (open_guard (target_of (snd u)); reflexivity).
    rewrite Hone. simpl continue_with. rewrite IH. reflexivity.
  - apply exec_block_markers.
Qed.
